(** * discord.js voice player and client data resolver

    Shallow embedding of
    - [src/client/ClientDataResolver.js] (module [Resolver]),
    - the base audio player [BasePlayer] and [DefaultPlayer]
      ([src/client/voice/player/]) (module [Player]).

    JavaScript values are modelled by explicit inductive types, exceptions by
    an outcome type that keeps the state reached when the exception was
    raised, and the objects the player creates and wires by a trace of
    events in program order. *)

From Stdlib Require Import QArith.
From stdpp Require Import base option list strings gmap.

Set Default Proof Using "Type".
Local Open Scope string_scope.
Local Open Scope list_scope.

(** ** JavaScript primitives *)

Module JS.

(** Primitive values.  Numbers are rationals: NaN and the infinities are not
    represented. *)
Inductive prim :=
| PUndefined
| PNull
| PBool (b : bool)
| PNum (q : Q)
| PStr (s : string).

(** [ToBoolean] on primitives. *)
Definition truthy (p : prim) : bool :=
  match p with
  | PUndefined | PNull => false
  | PBool b => b
  | PNum q => negb (Qeq_bool q 0)
  | PStr s => negb (String.eqb s "")
  end.

(** [p === undefined] *)
Definition is_undefined (p : prim) : bool :=
  match p with PUndefined => true | _ => false end.

(** [p === false] *)
Definition is_false (p : prim) : bool :=
  match p with PBool false => true | _ => false end.

End JS.

(** ** ClientDataResolver *)

Module Resolver.
Import JS.

(** The structure classes ([User], [GuildMember], [Message], [Guild],
    [Channel]) are required by the resolver from [../structures]; only the
    properties the resolver reads are kept, typed as its JSDoc gives them. *)
Record User := { user_id : string }.
Record GuildMember := { member_id : string; member_user : User }.
Record Channel := { channel_id : string }.
Record Message := { message_id : string; author : User; channel : Channel }.
Record Guild := {
  guild_id : string;
  ownerID : string;
  owner : User;
  members : gmap string GuildMember;
  channels : gmap string Channel
}.

(** [this.client]: the three caches the resolver reads, keyed by ID. *)
Record Client := {
  client_users : gmap string User;
  client_guilds : gmap string Guild;
  client_channels : gmap string Channel
}.

(** The values a resolver can be handed, by the tests the code applies to
    them ([instanceof], [typeof]). *)
Inductive value :=
| VPrim (p : prim)
| VUser (u : User)
| VGuildMember (m : GuildMember)
| VMessage (m : Message)
| VGuild (g : Guild)
| VChannel (c : Channel)
| VOther.

Definition null : value := VPrim PNull.
Definition undefined : value := VPrim PUndefined.

Inductive Error :=
| NOT_A_PERMISSION
| TypeError.

Inductive result :=
| Ok (v : value)
| Throw (e : Error).

(** [ToBoolean]: every object is truthy. *)
Definition truthy_value (v : value) : bool :=
  match v with VPrim p => truthy p | _ => true end.

(** [collection.get(key)]: the caches are keyed by ID strings, so a key
    that is not a string finds nothing ([undefined], here [None]). *)
Definition get {A} (collection : gmap string A) (key : value) : option A :=
  match key with
  | VPrim (PStr s) => collection !! s
  | _ => None
  end.

(** [x || null] where [x] is the result of [get]: an object, which is
    truthy, or [undefined]. *)
Definition or_null {A} (inj : A -> value) (x : option A) : value :=
  match x with Some a => inj a | None => null end.

(** [v.id].  A string primitive has no [id] property. *)
Definition prop_id (v : value) : result :=
  match v with
  | VUser u => Ok (VPrim (PStr (user_id u)))
  | VGuildMember m => Ok (VPrim (PStr (member_id m)))
  | VGuild g => Ok (VPrim (PStr (guild_id g)))
  | VChannel c => Ok (VPrim (PStr (channel_id c)))
  | VMessage m => Ok (VPrim (PStr (message_id m)))
  | VPrim PUndefined | VPrim PNull => Throw TypeError
  | VPrim _ | VOther => Ok undefined
  end.

Definition resolveUser (client : Client) (user : value) : result :=
  match user with
  | VUser _ => Ok user
  | VPrim (PStr _) => Ok (or_null VUser (get (client_users client) user))
  | VGuildMember m => Ok (VUser (member_user m))
  | VMessage m => Ok (VUser (author m))
  | VGuild g => Ok (VUser (owner g))
  | _ => Ok null
  end.

Definition resolveUserID (user : value) : result :=
  match user with
  | VUser _ | VGuildMember _ => prop_id user
  | VPrim (PStr _) => Ok (if truthy_value user then user else null)
  | VMessage m => prop_id (VUser (author m))
  | VGuild g => Ok (VPrim (PStr (ownerID g)))
  | _ => Ok null
  end.

Definition resolveGuild (client : Client) (guild : value) : result :=
  match guild with
  | VGuild _ => Ok guild
  | VPrim (PStr _) => Ok (or_null VGuild (get (client_guilds client) guild))
  | _ => Ok null
  end.

Definition resolveGuildMember (client : Client) (guild user : value) : result :=
  match user with
  | VGuildMember _ => Ok user
  | _ =>
    match resolveGuild client guild with
    | Throw e => Throw e
    | Ok guild =>
      match resolveUser client user with
      | Throw e => Throw e
      | Ok user =>
        if negb (truthy_value guild) || negb (truthy_value user) then Ok null
        else
          match guild with
          | VGuild g =>
            match prop_id user with
            | Throw e => Throw e
            | Ok id => Ok (or_null VGuildMember (get (members g) id))
            end
          | _ => Throw TypeError
          end
      end
    end
  end.

Definition resolveChannel (client : Client) (channel : value) : result :=
  match channel with
  | VChannel _ => Ok channel
  | VMessage m => Ok (VChannel (Resolver.channel m))
  | VGuild g =>
    match prop_id channel with
    | Throw e => Throw e
    | Ok id => Ok (or_null VChannel (get (channels g) id))
    end
  | VPrim (PStr _) =>
    match prop_id channel with
    | Throw e => Throw e
    | Ok id => Ok (or_null VChannel (get (client_channels client) id))
    end
  | _ => Ok null
  end.

(** [Constants.PermissionFlags] is defined in [util/Constants]; the resolver
    only reads it, so the table is a parameter here: a finite map from flag
    names to permission numbers.  Reading a name the table lacks gives
    [undefined]. *)
Section Permission.
Variable PermissionFlags : gmap string Q.


End Permission.




End Resolver.

(** ** BasePlayer and DefaultPlayer *)

Module Player.
Import JS.

(** Every object the player handles (streams, transform stages,
    dispatchers) is named by an identifier. *)
Definition ObjId := nat.

(** [playUnknown]'s input: a [ReadableStream] instance or any other value
    (a file path). *)
Inductive Input :=
| InStream (s : ObjId)
| InValue (p : prim).

(** Elements of an FFmpeg argument array: a value put there as it is, or
    [String(v)]. *)
Inductive arg :=
| AVal (p : prim)
| AString (p : prim).

(** The [options] object of a play call; an absent property reads as
    [PUndefined]. *)
Record Options := { seek : prim; volume : prim; passes : prim }.

(** The [streams] object; [None] is an absent property. *)
Record Streams := {
  s_ffmpeg : option ObjId;
  s_input : option ObjId;
  s_opus : option ObjId;
  s_volume : option ObjId
}.

(** [{}] *)
Definition no_streams : Streams :=
  {| s_ffmpeg := None; s_input := None; s_opus := None; s_volume := None |}.

Definition set_input (x : ObjId) (st : Streams) : Streams :=
  {| s_ffmpeg := s_ffmpeg st; s_input := Some x;
     s_opus := s_opus st; s_volume := s_volume st |}.
Definition set_opus (x : ObjId) (st : Streams) : Streams :=
  {| s_ffmpeg := s_ffmpeg st; s_input := s_input st;
     s_opus := Some x; s_volume := s_volume st |}.
Definition set_volume (x : ObjId) (st : Streams) : Streams :=
  {| s_ffmpeg := s_ffmpeg st; s_input := s_input st;
     s_opus := s_opus st; s_volume := Some x |}.

(** A [prism] transform with the object literal its constructor is given:
    [prism.FFmpeg({ args })], and for the others the list of the literal's
    properties. *)
Inductive StageSpec :=
| FFmpeg (args : list arg)
| OpusEncoder (params : list (string * prim))
| OpusDecoder (params : list (string * prim))
| VolumeTransformer16LE (params : list (string * prim)).

(** [{ channels: 2, rate: 48000, frameSize: 960 }] *)
Definition codec_params : list (string * prim) :=
  [("channels", PNum 2); ("rate", PNum 48000); ("frameSize", PNum 960)].

(** What the player does to the objects around it, in program order. *)
Inductive Event :=
| ENew (id : ObjId) (spec : StageSpec)
| ECreateReadStream (id : ObjId) (file : prim)
| ENewDispatcher (id : ObjId) (options : option Options) (streams : Streams)
                 (broadcast : option ObjId)
| EPipe (src dst : ObjId)
| EDestroy (id : ObjId).

Record StreamingData := { sd_channels : Z; sequence : Z; timestamp : Z }.

(** The player ([this.dispatcher], [this.streamingData]), the module-level
    array [FFMPEG_ARGUMENTS] (shared by all calls, and mutable), the next
    free object identifier and the trace of events so far. *)
Record World := {
  dispatcher : option ObjId;
  streamingData : StreamingData;
  FFMPEG_ARGUMENTS : list arg;
  next_id : ObjId;
  trace : list Event
}.

Definition FFMPEG_ARGUMENTS_initial : list arg :=
  map (fun s => AVal (PStr s))
    ["-analyzeduration"; "0"; "-loglevel"; "0"; "-f"; "s16le";
     "-ar"; "48000"; "-ac"; "2"].

(** [new BasePlayer()] when the module has just been loaded. *)
Definition constructor : World :=
  {| dispatcher := None;
     streamingData := {| sd_channels := 2; sequence := 0; timestamp := 0 |};
     FFMPEG_ARGUMENTS := FFMPEG_ARGUMENTS_initial;
     next_id := 0;
     trace := [] |}.

Inductive Error :=
| TypeError
| StageInitError (spec : StageSpec).

(** A call returns or throws; either way the state it reached stays. *)
Inductive outcome (A : Type) :=
| Ok (a : A) (w : World)
| Throw (e : Error) (w : World).
Arguments Ok {A} a w.
Arguments Throw {A} e w.

Definition state_of {A} (o : outcome A) : World :=
  match o with Ok _ w => w | Throw _ w => w end.

Definition M (A : Type) : Type := World -> outcome A.

#[global] Instance M_ret : MRet M := fun A a w => Ok a w.
#[global] Instance M_bind : MBind M := fun A B f m w =>
  match m w with
  | Ok a w' => f a w'
  | Throw e w' => Throw e w'
  end.

Definition throw {A} (e : Error) : M A := fun w => Throw e w.

Definition emit (e : Event) : M unit := fun w =>
  Ok tt {| dispatcher := dispatcher w; streamingData := streamingData w;
           FFMPEG_ARGUMENTS := FFMPEG_ARGUMENTS w; next_id := next_id w;
           trace := trace w ++ [e] |}.

Definition fresh : M ObjId := fun w =>
  Ok (next_id w)
     {| dispatcher := dispatcher w; streamingData := streamingData w;
        FFMPEG_ARGUMENTS := FFMPEG_ARGUMENTS w; next_id := S (next_id w);
        trace := trace w |}.

Definition get_dispatcher : M (option ObjId) := fun w => Ok (dispatcher w) w.

Definition set_dispatcher (d : option ObjId) : M unit := fun w =>
  Ok tt {| dispatcher := d; streamingData := streamingData w;
           FFMPEG_ARGUMENTS := FFMPEG_ARGUMENTS w; next_id := next_id w;
           trace := trace w |}.

Definition get_FFMPEG_ARGUMENTS : M (list arg) := fun w =>
  Ok (FFMPEG_ARGUMENTS w) w.

Definition set_FFMPEG_ARGUMENTS (args : list arg) : M unit := fun w =>
  Ok tt {| dispatcher := dispatcher w; streamingData := streamingData w;
           FFMPEG_ARGUMENTS := args; next_id := next_id w;
           trace := trace w |}.

(** Reading a property of [options]: a [TypeError] when [options] is
    [undefined]. *)
Definition property_of (options : option Options) : M Options :=
  match options with
  | Some o => mret o
  | None => throw TypeError
  end.

(** [src.pipe(dst)] returns [dst]. *)
Definition pipe (src dst : ObjId) : M ObjId :=
  emit (EPipe src dst);; mret dst.

(** [new StreamDispatcher(this, options, streams, broadcast)]; the class is
    required from [../dispatcher/StreamDispatcher], and its constructor is
    taken not to throw. *)
Definition new_StreamDispatcher (options : option Options) (streams : Streams)
    (broadcast : option ObjId) : M ObjId :=
  id ← fresh; emit (ENewDispatcher id options streams broadcast);; mret id.

(** [fs.createReadStream(file)] *)
Definition createReadStream (file : prim) : M ObjId :=
  id ← fresh; emit (ECreateReadStream id file);; mret id.

Section BasePlayer.

(** Which [prism] constructors throw in this environment (a codec that is
    not installed, a binary that is not found). *)
Variable raises : StageSpec -> bool.

Definition new (spec : StageSpec) : M ObjId :=
  if raises spec then throw (StageInitError spec)
  else id ← fresh; emit (ENew id spec);; mret id.

Definition destroyDispatcher : M unit :=
  d ← get_dispatcher;
  match d with
  | Some d => emit (EDestroy d);; set_dispatcher None
  | None => mret tt
  end.

Definition destroy : M unit := destroyDispatcher.

Definition createDispatcher (options : option Options) (streams : Streams)
    (broadcast : option ObjId) : M ObjId :=
  destroyDispatcher;;
  dispatcher ← new_StreamDispatcher options streams broadcast;
  set_dispatcher (Some dispatcher);;
  mret dispatcher.

Definition playOpusStream (stream : ObjId) (options : option Options)
    (streams : Streams) : M ObjId :=
  destroyDispatcher;;
  let streams := set_opus stream streams in
  o ← property_of options;
  streams ←
    (if negb (is_false (volume o)) &&
        negb (bool_decide (is_Some (s_input streams)))
     then
       let streams := set_input stream streams in
       decoder ← new (OpusDecoder codec_params);
       vol ← new (VolumeTransformer16LE
                    [("volume", match options with
                                | Some o => volume o
                                | None => PNum 1
                                end)]);
       let streams := set_volume vol streams in
       p1 ← pipe stream decoder;
       p2 ← pipe p1 vol;
       encoder ← new (OpusEncoder codec_params);
       p3 ← pipe p2 encoder;
       mret (set_opus p3 streams)
     else mret streams);
  dispatcher ← createDispatcher options streams None;
  match s_opus streams with
  | Some opus => pipe opus dispatcher
  | None => throw TypeError
  end;;
  mret dispatcher.

Definition playPCMStream (stream : ObjId) (options : option Options)
    (streams : Streams) : M ObjId :=
  destroyDispatcher;;
  opus ← new (OpusEncoder codec_params);
  let streams := set_opus opus streams in
  if match options with Some o => is_false (volume o) | None => false end
  then
    pipe stream opus;;
    playOpusStream opus options streams
  else
    vol ← new (VolumeTransformer16LE
                 [("volume", match options with
                             | Some o => volume o
                             | None => PNum 1
                             end)]);
    let streams := set_volume vol streams in
    p ← pipe stream vol;
    pipe p opus;;
    playOpusStream opus options streams.

Definition playUnknown (input : Input) (options : option Options) : M ObjId :=
  destroyDispatcher;;
  let isStream :=
    match input with InStream _ => true | InValue _ => false end in
  shared ← get_FFMPEG_ARGUMENTS;
  let args :=
    match input with
    | InStream _ => shared
    | InValue p => AVal (PStr "-i") :: AVal p :: shared
    end in
  o ← property_of options;
  args ←
    (if truthy (seek o) then
       let args := args ++ [AVal (PStr "-ss"); AString (seek o)] in
       (if isStream then set_FFMPEG_ARGUMENTS args else mret tt);;
       mret args
     else mret args);
  ffmpeg ← new (FFmpeg args);
  let streams :=
    {| s_ffmpeg := Some ffmpeg; s_input := None;
       s_opus := None; s_volume := None |} in
  streams ←
    match input with
    | InStream s => pipe s ffmpeg;; mret (set_input s streams)
    | InValue _ => mret streams
    end;
  playPCMStream ffmpeg options streams.

(** DefaultPlayer.  [this._shutdown] and [this.convertStream] are called by
    [playStream] and defined neither in DefaultPlayer nor in BasePlayer:
    they are parameters. *)
Section DefaultPlayer.
Variable _shutdown : M unit.
Variable convertStream : ObjId -> Options -> M ObjId.

Definition playStream (stream : ObjId) (obj : option Options) : M ObjId :=
  _obj ← property_of obj;
  let _obj_seek := seek _obj in
  let seek := if is_undefined _obj_seek then PNum 0 else _obj_seek in
  let _obj_volume := volume _obj in
  let volume := if is_undefined _obj_volume then PNum 1 else _obj_volume in
  let _obj_passes := passes _obj in
  let passes := if is_undefined _obj_passes then PNum 1 else _obj_passes in
  _shutdown;;
  let options := {| seek := seek; volume := volume; passes := passes |} in
  pcmStream ← convertStream stream options;
  dispatcher ← playPCMStream pcmStream (Some options) no_streams;
  mret dispatcher.

Definition playFile (file : prim) (obj : option Options) : M ObjId :=
  _obj ← property_of obj;
  let _obj_seek := seek _obj in
  let seek := if is_undefined _obj_seek then PNum 0 else _obj_seek in
  let _obj_volume := volume _obj in
  let volume := if is_undefined _obj_volume then PNum 1 else _obj_volume in
  let options := {| seek := seek; volume := volume; passes := PUndefined |} in
  stream ← createReadStream file;
  playStream stream (Some options).

End DefaultPlayer.

(** The public calls of a BasePlayer, to talk about sequences of them. *)
Inductive Call :=
| CallPlayUnknown (input : Input) (options : option Options)
| CallPlayPCMStream (stream : ObjId) (options : option Options)
                    (streams : Streams)
| CallPlayOpusStream (stream : ObjId) (options : option Options)
                     (streams : Streams)
| CallCreateDispatcher (options : option Options) (streams : Streams)
                       (broadcast : option ObjId)
| CallDestroy.

Definition run_call (c : Call) : M (option ObjId) :=
  match c with
  | CallPlayUnknown input options =>
    d ← playUnknown input options; mret (Some d)
  | CallPlayPCMStream stream options streams =>
    d ← playPCMStream stream options streams; mret (Some d)
  | CallPlayOpusStream stream options streams =>
    d ← playOpusStream stream options streams; mret (Some d)
  | CallCreateDispatcher options streams broadcast =>
    d ← createDispatcher options streams broadcast; mret (Some d)
  | CallDestroy => destroy;; mret None
  end.

(** A sequence of calls; a caller that catches an exception goes on with
    the state the failed call left. *)
Fixpoint run_calls (cs : list Call) (w : World) : World :=
  match cs with
  | [] => w
  | c :: cs => run_calls cs (state_of (run_call c w))
  end.

End BasePlayer.

(** *** Reading a trace *)

(** The events a call added: those of [w'] after the ones [w] had. *)
Definition new_events (w w' : World) : list Event :=
  drop (length (trace w)) (trace w').

(** The transforms constructed, in construction order. *)
Definition stages (evs : list Event) : list StageSpec :=
  omap (fun e => match e with ENew _ spec => Some spec | _ => None end) evs.

(** [Chain evs src specs sink]: in [evs], [src] is piped through transforms
    constructed with [specs], in this order, into [sink]. *)
Inductive Chain (evs : list Event) : ObjId -> list StageSpec -> ObjId -> Prop :=
| Chain_direct src sink :
    EPipe src sink ∈ evs -> Chain evs src [] sink
| Chain_stage src id spec specs sink :
    EPipe src id ∈ evs -> ENew id spec ∈ evs -> Chain evs id specs sink ->
    Chain evs src (spec :: specs) sink.

(** What [destroyDispatcher] does to the dispatcher held. *)
Definition destroyed (d : option ObjId) : list Event :=
  match d with Some d => [EDestroy d] | None => [] end.

(** The dispatchers constructed and not destroyed since, after each event
    of a trace in turn. *)
Definition live_step (l : list ObjId) (e : Event) : list ObjId :=
  match e with
  | ENewDispatcher d _ _ _ => d :: l
  | EDestroy d => filter (fun x => x ≠ d) l
  | _ => l
  end.

Definition live (tr : list Event) : list ObjId := foldl live_step [] tr.

(** How many times [d.destroy()] is called in [evs]. *)
Definition is_destroy_of (d : ObjId) (e : Event) : bool :=
  match e with EDestroy x => Nat.eqb x d | _ => false end.

Definition count_destroy (d : ObjId) (evs : list Event) : nat :=
  length (List.filter (is_destroy_of d) evs).

(** At every instant of a trace at most one dispatcher is alive. *)
Definition History (tr : list Event) : Prop :=
  forall n, length (live (take n tr)) <= 1.

(** The dispatcher alive, if any, is the one in the player's slot. *)
Definition Inv (w : World) : Prop :=
  History (trace w) /\ live (trace w) = option_list (dispatcher w).

(** The dispatchers an extension of the trace constructs, with the options
    they are given, and the objects it destroys. *)
Definition created (evs : list Event) : list ObjId :=
  omap (fun e => match e with
                 | ENewDispatcher d _ _ _ => Some d
                 | _ => None
                 end) evs.

Definition dispatcher_options (evs : list Event) : list (option Options) :=
  omap (fun e => match e with
                 | ENewDispatcher _ options _ _ => Some options
                 | _ => None
                 end) evs.

Definition destroys (evs : list Event) : list ObjId :=
  omap (fun e => match e with EDestroy d => Some d | _ => None end) evs.

(** The streams constructed and how they are piped. *)
Definition wiring (evs : list Event) : list Event :=
  omap (fun e => match e with
                 | ENew _ _ | EPipe _ _ => Some e
                 | _ => None
                 end) evs.

(** What a computation that only constructs and wires streams does: the
    slot is not touched, no dispatcher is constructed, nothing destroyed. *)
Definition Ext (w w' : World) : Prop :=
  dispatcher w' = dispatcher w /\
  exists evs,
    trace w' = trace w ++ evs /\ created evs = [] /\ destroys evs = [].

Definition builds {A} (m : M A) : Prop := forall w, Ext w (state_of (m w)).

(** What a play call does: the dispatcher held is destroyed first, and
    nothing else is; on success one dispatcher is constructed, the one
    returned, and it is stored; on failure none is constructed and the slot
    is left empty. *)
Definition play_outcome (w : World) (o : outcome ObjId) : Prop :=
  dispatcher (state_of o) =
    match o with Ok d _ => Some d | Throw _ _ => None end /\
  exists evs,
    trace (state_of o) = trace w ++ destroyed (dispatcher w) ++ evs /\
    destroys evs = [] /\
    created evs = option_list (dispatcher (state_of o)).

Definition Plays (m : M ObjId) : Prop := forall w, play_outcome w (m w).
Definition Plays0 (m : M ObjId) : Prop :=
  forall w, dispatcher w = None -> play_outcome w (m w).

(** The state [destroyDispatcher] leaves, whether a dispatcher was held or
    not. *)
Definition after_destroy (w : World) : World :=
  {| dispatcher := None; streamingData := streamingData w;
     FFMPEG_ARGUMENTS := FFMPEG_ARGUMENTS w; next_id := next_id w;
     trace := trace w ++ destroyed (dispatcher w) |}.

(** [options] with another [passes]. *)
Definition with_passes (p : prim) (options : option Options) : option Options :=
  match options with
  | Some o => Some {| seek := seek o; volume := volume o; passes := p |}
  | None => None
  end.

(** The construction parameter [name] of a transform (the FFmpeg transform
    has one, [args], and it is an array). *)
Definition param (name : string) (spec : StageSpec) : option prim :=
  match spec with
  | FFmpeg _ => None
  | OpusEncoder params | OpusDecoder params | VolumeTransformer16LE params =>
    snd <$> List.find (fun kv => String.eqb (fst kv) name) params
  end.

(** No transform is given [passes], and every encoder is given the same
    fixed parameters. *)
Definition passes_free (spec : StageSpec) : Prop :=
  param "passes" spec = None /\
  match spec with OpusEncoder params => params = codec_params | _ => True end.

(** Changing [passes] changes neither the streams constructed nor their
    wiring. *)
Definition passes_unused (f : option Options -> M ObjId) : Prop :=
  forall p options w,
    wiring (trace (state_of (f (with_passes p options) w))) =
    wiring (trace (state_of (f options w))).

(** No transform constructed is given [passes]; the dispatcher, when one is
    constructed, is given the [options] object as it is. *)
Definition passes_to_dispatcher (f : option Options -> M ObjId) : Prop :=
  forall options w,
    Forall passes_free (stages (new_events w (state_of (f options w)))) /\
    dispatcher_options (new_events w (state_of (f options w))) =
      match f options w with Ok _ _ => [options] | Throw _ _ => [] end.

(** An environment where the opus codec is missing: every opus encoder
    raises. *)
Definition no_opus_encoder (spec : StageSpec) : bool :=
  match spec with OpusEncoder _ => true | _ => false end.

(** An environment where every constructor succeeds. *)
Definition no_raise (spec : StageSpec) : bool := false.

(** A world to run examples in: the player as constructed, holding the
    dispatcher [d] if any; the objects below [n] exist already (the
    caller's streams, the dispatcher held). *)
Definition world_with (d : option ObjId) (n : ObjId) : World :=
  {| dispatcher := d; streamingData := streamingData constructor;
     FFMPEG_ARGUMENTS := FFMPEG_ARGUMENTS_initial; next_id := n;
     trace := [] |}.

End Player.

(** ** ClientDataResolver: strings, images and files *)

Module Data.
Import JS.

(** What [resolveBase64], [resolveString] and [resolveFile] tell apart: a
    [Buffer], an [Array], and any other value. *)
#[warnings="-register-all"]
Inductive data :=
| DBuffer (bytes : list Byte.byte)
| DArray (elems : list data)
| DValue (v : Resolver.value).

Definition dstring (s : string) : data := DValue (Resolver.VPrim (PStr s)).

(** The line feed of ['\n']. *)
Definition newline : string := String (Ascii.ascii_of_nat 10) EmptyString.

(** [elems.join(sep)], given the conversion of an element to a string:
    [undefined] and [null] elements give the empty string. *)
Definition element (ToString : data -> string) (e : data) : string :=
  match e with
  | DValue (Resolver.VPrim PUndefined) | DValue (Resolver.VPrim PNull) => ""
  | _ => ToString e
  end.

Definition join (ToString : data -> string) (sep : string) :=
  fix join (elems : list data) : string :=
    match elems with
    | [] => ""
    | [e] => element ToString e
    | e :: rest => element ToString e +:+ sep +:+ join rest
    end.

Section Conversions.

(** [buffer.toString('base64')] is Node's. *)
Variable toBase64 : list Byte.byte -> string.

(** [String(v)] for the values whose conversion is not fixed here: numbers,
    buffers, and objects (through their [toString] method). *)
Variable String_other : data -> string.

(** [String(data)]; an array converts to its elements joined by commas. *)
Fixpoint ToString (d : data) : string :=
  match d with
  | DArray elems => join ToString "," elems
  | DValue (Resolver.VPrim (PStr s)) => s
  | DValue (Resolver.VPrim PUndefined) => "undefined"
  | DValue (Resolver.VPrim PNull) => "null"
  | DValue (Resolver.VPrim (PBool true)) => "true"
  | DValue (Resolver.VPrim (PBool false)) => "false"
  | _ => String_other d
  end.

Definition resolveBase64 (d : data) : data :=
  match d with
  | DBuffer bytes => dstring ("data:image/jpg;base64," +:+ toBase64 bytes)
  | _ => d
  end.

Definition resolveString (d : data) : string :=
  match d with
  | DValue (Resolver.VPrim (PStr s)) => s
  | DArray elems => join ToString newline elems
  | _ => ToString d
  end.

End Conversions.

(** *** resolveFile *)

(** What the outside answers: [fs.stat] calls back with an error or with
    stats, [fs.readFile] with an error or the data, the HTTP request ends
    with an error or a response body. *)
Inductive StatAnswer :=
| StatError (err : string)
| StatOk (isFile : bool).

Inductive ReadAnswer :=
| ReadError (err : string)
| ReadOk (bytes : list Byte.byte).

Record Outside := {
  path_resolve : string -> string;
  request_get : string -> ReadAnswer;
  fs_stat : string -> StatAnswer;
  fs_readFile : string -> ReadAnswer
}.

(** The requests [resolveFile] makes. *)
Inductive Request :=
| HttpGet (url : string)
| Stat (file : string)
| ReadFile (file : string).

Inductive Reason :=
| Err (err : string)
| TypeError (message : string).

Inductive Promise :=
| Pending
| Resolved (bytes : list Byte.byte)
| Rejected (reason : Reason).

(** Where a call of [resolveFile] ends once every callback has run: the
    state of the promise returned, the [Error] thrown out of a callback (no
    promise catches it), and the requests made, in order. *)
Record Settled := {
  promise : Promise;
  uncaught : option string;
  requests : list Request
}.

(** [/^https?:\/\//.test(resource)] *)
Definition is_url (resource : string) : bool :=
  String.prefix "http://" resource || String.prefix "https://" resource.

Definition resolveFile (outside : Outside) (resource : data) : Settled :=
  match resource with
  | DValue (Resolver.VPrim (PStr resource)) =>
    if is_url resource then
      {| promise :=
           match request_get outside resource with
           | ReadError err => Rejected (Err err)
           | ReadOk body => Resolved body
           end;
         uncaught := None;
         requests := [HttpGet resource] |}
    else
      let file := path_resolve outside resource in
      match fs_stat outside file with
      | StatError err =>
        (* reject(err), then [stats] is undefined: the throw *)
        {| promise := Rejected (Err err);
           uncaught := Some ("The file could not be found: " +:+ file);
           requests := [Stat file] |}
      | StatOk false =>
        {| promise := Pending;
           uncaught := Some ("The file could not be found: " +:+ file);
           requests := [Stat file] |}
      | StatOk true =>
        {| promise :=
             match fs_readFile outside file with
             | ReadError err2 => Rejected (Err err2)
             | ReadOk bytes => Resolved bytes
             end;
           uncaught := None;
           requests := [Stat file; ReadFile file] |}
      end
  | DBuffer bytes =>
    {| promise := Resolved bytes; uncaught := None; requests := [] |}
  | _ =>
    {| promise := Rejected (TypeError "Resource must be a string or Buffer.");
       uncaught := None; requests := [] |}
  end.

End Data.

(** * Properties of the resolver *)

Module ResolverFacts.
Import JS Resolver.

(** ** Results are null or of the resolved kind *)

Lemma or_null_cases {A} (inj : A -> value) (x : option A) :
  or_null inj x = null \/ exists a, or_null inj x = inj a.
Proof. destruct x as [a|]; simpl; [right; by exists a | by left]. Qed.






(** A string ID that the cache lacks resolves to [null], not [undefined]. *)
Lemma resolveUser_miss client s :
  client_users client !! s = None ->
  resolveUser client (VPrim (PStr s)) = Ok null.
Proof. intros H. simpl. by rewrite H. Qed.

Lemma resolveGuild_miss client s :
  client_guilds client !! s = None ->
  resolveGuild client (VPrim (PStr s)) = Ok null.
Proof. intros H. simpl. by rewrite H. Qed.



(** ** Inputs of a kind a resolver does not know *)




Lemma resolveGuild_other client v :
  (forall g, v <> VGuild g) -> (forall s, v <> VPrim (PStr s)) ->
  resolveGuild client v = Ok null.
Proof.
  intros Hg Hs. destruct v as [[| | | |s]| | | |g| |]; try done.
  - by destruct (Hs s).
  - by destruct (Hg g).
Qed.



(** C10: [resolveChannel] returns [null] for every string, also for the ID
    of a channel that is in the client's cache, because the string branch
    looks up [channel.id], which is [undefined] on a string; only a Channel,
    a Message or a Guild can give a result that is not [null]. *)
Theorem resolveChannel_string_is_null :
  (forall (client : Client) (s : string),
     prop_id (VPrim (PStr s)) = Ok undefined /\
     resolveChannel client (VPrim (PStr s)) = Ok null) /\
  (forall users guilds chans (s : string) (c : Channel),
     let client := {| client_users := users; client_guilds := guilds;
                      client_channels := <[s := c]> chans |} in
     client_channels client !! s = Some c /\
     resolveChannel client (VPrim (PStr s)) = Ok null) /\
  (forall (client : Client) (v : value),
     match v with
     | VChannel _ | VMessage _ | VGuild _ => True
     | _ => resolveChannel client v = Ok null
     end).
Proof.
  split; [|split].
  - intros client s. by split.
  - intros users guilds chans s c. simpl.
    split; [apply lookup_insert_eq | done].
  - intros client [[]| | | | | |]; done.
Qed.

End ResolverFacts.

(** * Properties of the player *)

Module PlayerFacts.
Import JS Player.

(** ** Running a call *)

Lemma new_events_app w w' evs :
  trace w' = trace w ++ evs -> new_events w w' = evs.
Proof. unfold new_events. intros ->. by rewrite drop_app_length. Qed.

Lemma destroyDispatcher_run w : destroyDispatcher w = Ok tt (after_destroy w).
Proof.
  destruct w as [[d|] sd args n tr]; unfold after_destroy; simpl; [done|].
  by rewrite app_nil_r.
Qed.

Lemma after_destroy_idem w : after_destroy (after_destroy w) = after_destroy w.
Proof. unfold after_destroy. simpl. by rewrite app_nil_r. Qed.

Ltac unfold_calls :=
  unfold run_call, playFile, playStream, playUnknown, playPCMStream,
    playOpusStream, createDispatcher, destroy;
  unfold mbind, M_bind, mret, M_ret.

Ltac unfold_steps :=
  unfold destroyDispatcher, new, pipe,
    new_StreamDispatcher, createReadStream, property_of, get_dispatcher,
    set_dispatcher, get_FFMPEG_ARGUMENTS, set_FFMPEG_ARGUMENTS, emit, fresh,
    throw;
  unfold mbind, M_bind, mret, M_ret.

(** Run a call from [w]: the first [destroyDispatcher] is the only step
    that depends on the dispatcher held. *)
Ltac run :=
  unfold_calls; rewrite ?destroyDispatcher_run; unfold_steps; simpl.

(** Case analysis on what a run depends on: the constructors that raise,
    whether volume is disabled, whether [streams.input] is set, whether a
    seek offset is given. *)
Ltac cases :=
  repeat (simpl;
    match goal with
    | H : dispatcher ?w = _ |- context [dispatcher ?w] => rewrite H
    | |- context [is_false ?p] => destruct (is_false p) eqn:?
    | |- context [s_input ?s] => destruct (s_input s) eqn:?
    | |- context [truthy ?p] => destruct (truthy p) eqn:?
    | |- context [if ?r ?spec then _ else _] => destruct (r spec) eqn:?
    end);
  simpl.

Ltac trace_eq :=
  apply new_events_app; simpl; rewrite <- ?app_assoc; reflexivity.

(** Name the events a run added. *)
Ltac name_events H :=
  match goal with
  | |- context [new_events ?w ?w'] =>
    let evs := fresh "evs" in
    evar (evs : list Event);
    assert (H : new_events w w' = evs) by (subst evs; trace_eq);
    subst evs; rewrite !H; cbn [app]
  end.

Lemma stages_app evs1 evs2 : stages (evs1 ++ evs2) = stages evs1 ++ stages evs2.
Proof. apply omap_app. Qed.

Lemma stages_destroyed d evs : stages (destroyed d ++ evs) = stages evs.
Proof. by destruct d. Qed.

Lemma stages_destroyed_only d : stages (destroyed d) = [].
Proof. by destruct d. Qed.

Lemma dispatcher_options_destroyed_only d :
  dispatcher_options (destroyed d) = [].
Proof. by destruct d. Qed.

Lemma dispatcher_options_destroyed d evs :
  dispatcher_options (destroyed d ++ evs) = dispatcher_options evs.
Proof. by destruct d. Qed.

Lemma Chain_mono evs evs' src specs sink :
  evs ⊆ evs' -> Chain evs src specs sink -> Chain evs' src specs sink.
Proof.
  intros Hsub. induction 1.
  - apply Chain_direct. by apply Hsub.
  - eapply Chain_stage; eauto.
Qed.

Lemma Chain_destroyed d evs src specs sink :
  Chain evs src specs sink -> Chain (destroyed d ++ evs) src specs sink.
Proof. apply Chain_mono. set_solver. Qed.

Ltac member :=
  solve [repeat first [apply list_elem_of_here | apply list_elem_of_further]].

(** Follow the pipes from the source: through a transform when the next
    object was constructed in the trace, into the sink otherwise. *)
Ltac chain :=
  repeat first
    [ eapply Chain_stage; [member | member |]
    | apply Chain_direct; member ].

(** ** The stage chains of [playOpusStream] *)

(** C2: [playOpusStream] with [options.volume === false] constructs no
    transform (no decoder, no volume transformer, no encoder); it destroys
    the dispatcher held, constructs the new dispatcher and pipes the
    caller's stream straight into it, so the pipeline is that stream
    alone. *)
Theorem playOpusStream_volume_disabled :
  forall raises (stream : ObjId) (sk ps : prim) (streams : Streams) (w : World),
    let options := Some {| seek := sk; volume := PBool false; passes := ps |} in
    let d := next_id w in
    exists w',
      playOpusStream raises stream options streams w = Ok d w' /\
      new_events w w' =
        destroyed (dispatcher w) ++
        [ENewDispatcher d options (set_opus stream streams) None;
         EPipe stream d] /\
      stages (new_events w w') = [] /\
      Chain (new_events w w') stream [] d /\
      dispatcher w' = Some d.
Proof.
  intros raises stream sk ps streams w options d.
  run. eexists; split; [reflexivity|].
  name_events H. rewrite stages_destroyed. repeat split; try done.
  apply Chain_destroyed. chain.
Qed.

(** C4: [playOpusStream] with volume enabled, called with no
    [streams.input] (as a direct call is), constructs an opus decoder, a
    volume transformer given [options.volume] and an opus encoder, in this
    order and nothing else, pipes the caller's stream through them in this
    order, and pipes the encoder into the new dispatcher. *)
Theorem playOpusStream_volume_enabled :
  forall raises (stream : ObjId) (o : Options) (streams : Streams) (w : World),
    (forall spec, raises spec = false) ->
    is_false (volume o) = false ->
    s_input streams = None ->
    let n := next_id w in
    let decoder := OpusDecoder codec_params in
    let vol := VolumeTransformer16LE [("volume", volume o)] in
    let encoder := OpusEncoder codec_params in
    let streams' :=
      set_opus (n + 2) (set_volume (n + 1) (set_input stream
        (set_opus stream streams))) in
    exists w',
      playOpusStream raises stream (Some o) streams w = Ok (n + 3) w' /\
      new_events w w' =
        destroyed (dispatcher w) ++
        [ENew n decoder; ENew (n + 1) vol;
         EPipe stream n; EPipe n (n + 1);
         ENew (n + 2) encoder; EPipe (n + 1) (n + 2);
         ENewDispatcher (n + 3) (Some o) streams' None;
         EPipe (n + 2) (n + 3)] /\
      stages (new_events w w') = [decoder; vol; encoder] /\
      Chain (new_events w w') stream [decoder; vol; encoder] (n + 3) /\
      dispatcher w' = Some (n + 3).
Proof.
  intros raises stream o streams w Hraises Hvol Hin.
  intros n decoder vol encoder streams'.
  run. rewrite Hvol, Hin, !Hraises. simpl.
  subst n streams'.
  replace (next_id w + 1) with (S (next_id w)) by lia.
  replace (next_id w + 2) with (S (S (next_id w))) by lia.
  replace (next_id w + 3) with (S (S (S (next_id w)))) by lia.
  eexists; split; [reflexivity|].
  name_events H. rewrite stages_destroyed. repeat split; try done.
  apply Chain_destroyed. chain.
Qed.

(** The call [playOpusStream(stream, { volume: 0.5 })] on a new player. *)
Lemma playOpusStream_volume_enabled_witness :
  exists w',
    playOpusStream no_raise 0
      (Some {| seek := PUndefined; volume := PNum 0.5; passes := PUndefined |})
      no_streams (world_with None 1) = Ok 4 w' /\
    stages (new_events (world_with None 1) w') =
      [OpusDecoder codec_params;
       VolumeTransformer16LE [("volume", PNum 0.5)];
       OpusEncoder codec_params].
Proof.
  destruct (playOpusStream_volume_enabled no_raise 0
              {| seek := PUndefined; volume := PNum 0.5; passes := PUndefined |}
              no_streams (world_with None 1))
    as (w' & Hrun & _ & Hstages & _); [done | reflexivity | reflexivity |].
  exists w'. split; [exact Hrun | exact Hstages].
Defined.

(** ** The stage chains of [playPCMStream] *)

(** With volume enabled and [streams.input] set (as [playUnknown] sets it
    for a stream input): a volume transformer and an encoder, as the
    decision table has it. *)
Lemma playPCMStream_volume_enabled_input raises stream o streams input w :
  (forall spec, raises spec = false) ->
  is_false (volume o) = false ->
  s_input streams = Some input ->
  let n := next_id w in
  let vol := VolumeTransformer16LE [("volume", volume o)] in
  exists w',
    playPCMStream raises stream (Some o) streams w = Ok (n + 2) w' /\
    stages (new_events w w') = [OpusEncoder codec_params; vol] /\
    Chain (new_events w w') stream [vol; OpusEncoder codec_params] (n + 2).
Proof.
  intros Hraises Hvol Hin n vol. run. rewrite Hvol, Hin, !Hraises. simpl.
  subst n.
  replace (next_id w + 2) with (S (S (next_id w))) by lia.
  eexists; split; [reflexivity|].
  name_events H. rewrite stages_destroyed. split; [done|].
  apply Chain_destroyed. chain.
Qed.

(** With volume enabled and no [streams.input] (a direct call, or
    [playUnknown] for a path): [playOpusStream] takes the encoder's output
    for an opus stream of the caller's and decodes, scales and encodes it
    once more. *)
Lemma playPCMStream_volume_enabled_no_input raises stream o streams w :
  (forall spec, raises spec = false) ->
  is_false (volume o) = false ->
  s_input streams = None ->
  let n := next_id w in
  let vol := VolumeTransformer16LE [("volume", volume o)] in
  let encoder := OpusEncoder codec_params in
  let decoder := OpusDecoder codec_params in
  exists w',
    playPCMStream raises stream (Some o) streams w = Ok (n + 5) w' /\
    stages (new_events w w') = [encoder; vol; decoder; vol; encoder] /\
    Chain (new_events w w') stream [vol; encoder; decoder; vol; encoder]
          (n + 5).
Proof.
  intros Hraises Hvol Hin n vol encoder decoder. run.
  rewrite Hvol, Hin, !Hraises. simpl. subst n.
  replace (next_id w + 5) with (S (S (S (S (S (next_id w)))))) by lia.
  eexists; split; [reflexivity|].
  name_events H. rewrite stages_destroyed. split; [done|].
  apply Chain_destroyed. chain.
Qed.

(** C3, at a direct call [playPCMStream(stream, { volume: 0.5 })] (stream
    is object 0, nothing raises, no dispatcher is held): five transforms are
    constructed, not two; the caller's stream goes through the volume
    transformer and the encoder, and then through a decoder, a second
    volume transformer and a second encoder before the dispatcher. *)
Theorem playPCMStream_volume_enabled_doubles :
  let options :=
    Some {| seek := PUndefined; volume := PNum 0.5; passes := PUndefined |} in
  let vol := VolumeTransformer16LE [("volume", PNum 0.5)] in
  let encoder := OpusEncoder codec_params in
  let decoder := OpusDecoder codec_params in
  let w := world_with None 1 in
  exists w',
    playPCMStream no_raise 0 options no_streams w = Ok 6 w' /\
    new_events w w' =
      [ENew 1 encoder; ENew 2 vol; EPipe 0 2; EPipe 2 1;
       ENew 3 decoder; ENew 4 vol; EPipe 1 3; EPipe 3 4;
       ENew 5 encoder; EPipe 4 5;
       ENewDispatcher 6 options
         {| s_ffmpeg := None; s_input := Some 1;
            s_opus := Some 5; s_volume := Some 4 |} None;
       EPipe 5 6] /\
    stages (new_events w w') = [encoder; vol; decoder; vol; encoder] /\
    Chain (new_events w w') 0 [vol; encoder; decoder; vol; encoder] 6.
Proof.
  intros options vol encoder decoder w.
  eexists. split; [lazy; reflexivity|].
  split; [reflexivity|]. split; [reflexivity|].
  unfold new_events. simpl. chain.
Qed.

(** ** destroy *)

(** C7: [destroy()] on a player that holds the dispatcher [d] calls
    [d.destroy()] once and empties the slot; a second [destroy()] returns
    without an error and changes nothing (no event, so no second call of
    [d.destroy()]); over both calls [d.destroy()] is called exactly once. *)
Theorem destroy_twice :
  forall (w : World) (d : ObjId),
    dispatcher w = Some d ->
    exists w1,
      destroy w = Ok tt w1 /\
      new_events w w1 = [EDestroy d] /\
      dispatcher w1 = None /\
      destroy w1 = Ok tt w1 /\
      (destroy;; destroy) w = Ok tt w1 /\
      count_destroy d (new_events w w1) = 1.
Proof.
  intros w d Hd.
  assert (Hev : new_events w (after_destroy w) = [EDestroy d]).
  { apply new_events_app. simpl. by rewrite Hd. }
  exists (after_destroy w).
  unfold destroy, mbind, M_bind.
  rewrite !destroyDispatcher_run, after_destroy_idem, Hev.
  repeat split; try done.
  unfold count_destroy. simpl. by rewrite Nat.eqb_refl.
Qed.

(** A player that holds dispatcher 1. *)
Lemma destroy_twice_witness :
  exists w1,
    (destroy;; destroy) (world_with (Some 1) 2) = Ok tt w1 /\
    new_events (world_with (Some 1) 2) w1 = [EDestroy 1] /\
    dispatcher w1 = None.
Proof.
  destruct (destroy_twice (world_with (Some 1) 2) 1 eq_refl)
    as (w1 & _ & Hev & Hnone & _ & Hboth & _).
  exists w1. repeat split; assumption.
Defined.

(** ** Dispatchers alive along a trace *)

Lemma live_app tr evs : live (tr ++ evs) = foldl live_step (live tr) evs.
Proof. unfold live. by rewrite foldl_app. Qed.

Lemma History_nil : History [].
Proof. intros n. rewrite take_nil. simpl. lia. Qed.

Lemma History_now tr : History tr -> length (live tr) <= 1.
Proof. intros H. specialize (H (length tr)). by rewrite firstn_all in H. Qed.

Lemma created_app evs1 evs2 :
  created (evs1 ++ evs2) = created evs1 ++ created evs2.
Proof. apply omap_app. Qed.

Lemma destroys_app evs1 evs2 :
  destroys (evs1 ++ evs2) = destroys evs1 ++ destroys evs2.
Proof. apply omap_app. Qed.

(** Without a destroy, the dispatchers alive are the ones there were and
    the ones constructed. *)
Lemma foldl_no_destroy acc evs :
  destroys evs = [] ->
  foldl live_step acc evs = rev (created evs) ++ acc.
Proof.
  revert acc. induction evs as [|e evs IH]; intros acc Hd; [done|].
  destruct e; simpl in *; try discriminate; rewrite IH by done; try done.
  by rewrite <- app_assoc.
Qed.

(** From a point where no dispatcher is alive, constructing at most one and
    destroying none keeps at most one alive at every instant. *)
Lemma History_extend tr evs :
  History tr -> live tr = [] ->
  destroys evs = [] -> length (created evs) <= 1 ->
  History (tr ++ evs) /\ live (tr ++ evs) = rev (created evs).
Proof.
  intros Htr Hlive Hd Hc. split.
  - intros n. rewrite take_app.
    destruct (decide (n <= length tr)) as [Hn|Hn].
    + replace (n - length tr) with 0 by lia. rewrite take_0, app_nil_r.
      apply Htr.
    + rewrite take_ge by lia.
      set (m := n - length tr).
      rewrite <- (take_drop m evs) in Hd, Hc.
      rewrite destroys_app in Hd. apply app_eq_nil in Hd as [Hd _].
      rewrite created_app, length_app in Hc.
      rewrite live_app, foldl_no_destroy, Hlive, app_nil_r, length_rev by done.
      lia.
  - by rewrite live_app, foldl_no_destroy, Hlive, app_nil_r.
Qed.

(** Destroying the dispatcher held leaves none alive. *)
Lemma Inv_after_destroy w : Inv w -> Inv (after_destroy w).
Proof.
  intros [Hh Hl]. unfold Inv. simpl.
  assert (Hlive : live (trace w ++ destroyed (dispatcher w)) = []).
  { destruct (dispatcher w) as [d|]; simpl in *.
    - rewrite live_app, Hl. simpl.
      by rewrite filter_cons_False by (intros H; by apply H).
    - by rewrite app_nil_r. }
  split; [|done].
  intros n. rewrite take_app.
  destruct (decide (n <= length (trace w))) as [Hn|Hn].
  - replace (n - length (trace w)) with 0 by lia.
    rewrite take_0, app_nil_r. apply Hh.
  - rewrite take_ge by lia.
    destruct (dispatcher w) as [d|]; simpl in *.
    + destruct (n - length (trace w)) as [|k] eqn:Hk; [lia|].
      simpl. rewrite take_nil, Hlive. simpl. lia.
    + rewrite take_nil, app_nil_r. by apply History_now.
Qed.

Lemma Inv_constructor : Inv constructor.
Proof. split; [apply History_nil | done]. Qed.

(** A play call keeps the invariant, from any state that has it. *)
Lemma play_outcome_Inv w o : Inv w -> play_outcome w o -> Inv (state_of o).
Proof.
  intros HI [Hslot (evs & Ht & Hd & Hc)].
  destruct (Inv_after_destroy w HI) as [Hh Hl]. simpl in Hh, Hl.
  destruct (History_extend (trace w ++ destroyed (dispatcher w)) evs)
    as [Hh' Hl']; try done.
  { rewrite Hc. destruct (dispatcher (state_of o)); simpl; lia. }
  unfold Inv. rewrite Ht, app_assoc. split; [done|].
  rewrite Hl', Hc. by destruct (dispatcher (state_of o)).
Qed.

(** ** Steps that construct and wire streams *)

Lemma Ext_refl w : Ext w w.
Proof. split; [done|]. exists []. by rewrite app_nil_r. Qed.

Lemma Ext_trans w1 w2 w3 : Ext w1 w2 -> Ext w2 w3 -> Ext w1 w3.
Proof.
  intros [Hd1 (evs1 & Ht1 & Hc1 & Hx1)] [Hd2 (evs2 & Ht2 & Hc2 & Hx2)].
  split; [congruence|]. exists (evs1 ++ evs2).
  rewrite Ht2, Ht1, app_assoc, created_app, destroys_app, Hc1, Hc2, Hx1, Hx2.
  done.
Qed.

Lemma builds_ret {A} (a : A) : builds (mret a).
Proof. intros w. apply Ext_refl. Qed.

Lemma builds_throw {A} e : builds (@throw A e).
Proof. intros w. apply Ext_refl. Qed.

Lemma builds_bind {A B} (m : M A) (f : A -> M B) :
  builds m -> (forall a, builds (f a)) -> builds (m ≫= f).
Proof.
  intros Hm Hf w. specialize (Hm w). unfold mbind, M_bind.
  destruct (m w) as [a w1|e w1]; simpl in *; [|done].
  eapply Ext_trans; [done | apply Hf].
Qed.

Lemma builds_fresh : builds fresh.
Proof. intros w. split; [done|]. exists []. by rewrite app_nil_r. Qed.

Lemma builds_emit e : created [e] = [] -> destroys [e] = [] -> builds (emit e).
Proof. intros Hc Hd w. split; [done|]. by exists [e]. Qed.

Lemma builds_new raises spec : builds (new raises spec).
Proof.
  unfold new. destruct (raises spec); [apply builds_throw|].
  apply builds_bind; [apply builds_fresh|]. intros id.
  apply builds_bind; [|intros; apply builds_ret].
  by apply builds_emit.
Qed.

Lemma builds_pipe src dst : builds (pipe src dst).
Proof.
  apply builds_bind; [|intros; apply builds_ret].
  by apply builds_emit.
Qed.

Lemma builds_property_of options : builds (property_of options).
Proof. destruct options; [apply builds_ret | apply builds_throw]. Qed.

Lemma builds_get_FFMPEG_ARGUMENTS : builds get_FFMPEG_ARGUMENTS.
Proof. intros w. apply Ext_refl. Qed.

Lemma builds_set_FFMPEG_ARGUMENTS args : builds (set_FFMPEG_ARGUMENTS args).
Proof. intros w. split; [done|]. exists []. by rewrite app_nil_r. Qed.

Create HintDb builds.
#[local] Hint Resolve builds_ret builds_throw builds_fresh builds_new
  builds_pipe builds_property_of
  builds_get_FFMPEG_ARGUMENTS builds_set_FFMPEG_ARGUMENTS : builds.

(** Decompose a computation into its steps. *)
Ltac builds :=
  repeat first
    [ progress auto with builds
    | apply builds_bind; [|intros ?]
    | match goal with
      | |- builds (if ?b then _ else _) => destruct b
      | |- builds (match ?x with _ => _ end) => destruct x
      end ].

(** ** Play calls destroy, then build, then construct the dispatcher *)

Lemma Plays_Plays0 m : Plays m -> Plays0 m.
Proof. intros H w _. apply H. Qed.

Lemma Plays0_bind {A} (m : M A) (f : A -> M ObjId) :
  builds m -> (forall a, Plays0 (f a)) -> Plays0 (m ≫= f).
Proof.
  intros Hm Hf w Hw. destruct (Hm w) as [Hd (evs & Ht & Hc & Hx)].
  unfold mbind, M_bind, play_outcome. rewrite Hw in *. simpl.
  destruct (m w) as [a w1|e w1]; simpl in *.
  - destruct (Hf a w1 Hd) as [Hd2 (evs1 & Ht2 & Hx2 & Hc2)].
    rewrite Hd in Ht2. simpl in Ht2.
    destruct (f a w1) as [d w2|e w2]; simpl in *.
    all: split; [done|]; exists (evs ++ evs1).
    all: by rewrite Ht2, Ht, <- !app_assoc, created_app, destroys_app,
              Hc, Hx, Hx2, Hc2.
  - split; [done|]. exists evs. by rewrite Hd.
Qed.

Lemma Plays_destroy (m : M ObjId) : Plays0 m -> Plays (destroyDispatcher;; m).
Proof.
  intros Hm w. unfold mbind, M_bind. rewrite destroyDispatcher_run.
  destruct (Hm (after_destroy w) eq_refl) as [Hd (evs & Ht & Hx & Hc)].
  split; [done|]. exists evs. rewrite Ht. simpl. by rewrite <- app_assoc.
Qed.

Ltac play_outcome :=
  unfold play_outcome; cases;
  split; [done|]; eexists; simpl; rewrite <- ?app_assoc; simpl;
  split; [first [reflexivity | symmetry; apply app_nil_r] | done].

Lemma Plays_createDispatcher options streams broadcast :
  Plays (createDispatcher options streams broadcast).
Proof. apply Plays_destroy. intros w Hw. run. play_outcome. Qed.

Lemma Plays_playOpusStream raises stream options streams :
  Plays (playOpusStream raises stream options streams).
Proof.
  apply Plays_destroy. intros w Hw. run.
  destruct options as [o|]; cases; play_outcome.
Qed.

Lemma Plays_playPCMStream raises stream options streams :
  Plays (playPCMStream raises stream options streams).
Proof.
  apply Plays_destroy.
  apply Plays0_bind; [solve [builds]|]. intros opus.
  destruct options as [[sk [| |[]| |] ps]|]; simpl;
    repeat first
      [ apply Plays_Plays0, Plays_playOpusStream
      | apply Plays0_bind; [solve [builds]|]; intros ? ].
Qed.

Lemma Plays_playUnknown raises input options :
  Plays (playUnknown raises input options).
Proof.
  apply Plays_destroy.
  repeat first
    [ apply Plays_Plays0, Plays_playPCMStream
    | apply Plays0_bind; [solve [builds]|]; intros ? ].
Qed.

(** The outcome of a call of any kind, as [play_outcome] has it for the
    play calls. *)
Lemma run_call_outcome raises c w :
  match c with
  | CallDestroy => run_call raises c w = Ok None (after_destroy w)
  | _ =>
    exists o, play_outcome w o /\
      run_call raises c w =
        match o with Ok d w' => Ok (Some d) w' | Throw e w' => Throw e w' end
  end.
Proof.
  destruct c as [input options|stream options streams|stream options streams
                |options streams broadcast|]; simpl.
  - exists (playUnknown raises input options w).
    split; [apply Plays_playUnknown|].
    unfold mbind, M_bind. by destruct (playUnknown _ _ _ _).
  - exists (playPCMStream raises stream options streams w).
    split; [apply Plays_playPCMStream|].
    unfold mbind, M_bind. by destruct (playPCMStream _ _ _ _ _).
  - exists (playOpusStream raises stream options streams w).
    split; [apply Plays_playOpusStream|].
    unfold mbind, M_bind. by destruct (playOpusStream _ _ _ _ _).
  - exists (createDispatcher options streams broadcast w).
    split; [apply Plays_createDispatcher|].
    unfold mbind, M_bind. by destruct (createDispatcher _ _ _ _).
  - unfold destroy, mbind, M_bind. by rewrite destroyDispatcher_run.
Qed.

Lemma run_call_Inv raises c w : Inv w -> Inv (state_of (run_call raises c w)).
Proof.
  intros HI. pose proof (run_call_outcome raises c w) as H.
  destruct c; try (destruct H as (o & Ho & ->);
    apply (play_outcome_Inv w o HI) in Ho; by destruct o).
  rewrite H. by apply Inv_after_destroy.
Qed.

Lemma run_calls_Inv raises cs w : Inv w -> Inv (run_calls raises cs w).
Proof.
  revert w. induction cs as [|c cs IH]; intros w HI; [done|].
  simpl. by apply IH, run_call_Inv.
Qed.

(** C1: in every state a new player reaches by a sequence of calls of its
    public entry points (with any arguments, some of which may have
    thrown), at most one dispatcher is alive at every instant of the
    history, and the one alive, if any, is the one in the slot; and from
    such a state each play entry point destroys the dispatcher held before
    anything else, destroys nothing else, and constructs at most one
    dispatcher: on return the one it returns, which is then the one stored
    and the only one alive. *)
Theorem one_live_dispatcher :
  forall raises (cs : list Call),
    let w := run_calls raises cs constructor in
    (forall n, length (live (take n (trace w))) <= 1) /\
    live (trace w) = option_list (dispatcher w) /\
    (forall input options,
       play_outcome w (playUnknown raises input options w)) /\
    (forall stream options streams,
       play_outcome w (playPCMStream raises stream options streams w)) /\
    (forall stream options streams,
       play_outcome w (playOpusStream raises stream options streams w)) /\
    (forall options streams broadcast,
       play_outcome w (createDispatcher options streams broadcast w)).
Proof.
  intros raises cs w.
  destruct (run_calls_Inv raises cs constructor Inv_constructor) as [Hh Hl].
  split; [exact Hh|]. split; [exact Hl|].
  split; [intros; apply Plays_playUnknown|].
  split; [intros; apply Plays_playPCMStream|].
  split; [intros; apply Plays_playOpusStream|].
  intros; apply Plays_createDispatcher.
Qed.

(** ** A play call that throws *)

(** C6, as the code has it: when a play call throws (a constructor raises,
    or [options] is missing), the exception reaches the caller with no
    cleanup.  The dispatcher held before the call has been destroyed and
    the slot is empty (not restored); no dispatcher has been constructed,
    so nothing built for the call can be reached from the player; and the
    streams constructed for the call are not destroyed. *)
Theorem throw_leaves_stages :
  forall raises (c : Call) (w : World) (e : Error) (w' : World),
    run_call raises c w = Throw e w' ->
    dispatcher w' = None /\
    exists evs,
      new_events w w' = destroyed (dispatcher w) ++ evs /\
      destroys evs = [] /\ created evs = [].
Proof.
  intros raises c w e w' Hrun.
  pose proof (run_call_outcome raises c w) as H.
  destruct c; try (rewrite Hrun in H; discriminate).
  all: destruct H as ([d w1|e1 w1] & [Hslot (evs & Ht & Hd & Hc)] & Ho);
    rewrite Hrun in Ho; try discriminate;
    injection Ho as -> ->; simpl in *;
    (split; [done|]); exists evs;
    (split; [by apply new_events_app|]); split; [done|];
    by rewrite Hc, Hslot.
Qed.

(** [playUnknown(stream, { volume: 1 })] on a player that holds dispatcher
    1, when the opus encoder cannot be constructed. *)
Lemma throw_leaves_stages_witness :
  exists w',
    run_call no_opus_encoder
      (CallPlayUnknown (InStream 0)
         (Some {| seek := PUndefined; volume := PNum 1;
                  passes := PUndefined |}))
      (world_with (Some 1) 2) =
      Throw (StageInitError (OpusEncoder codec_params)) w' /\
    dispatcher w' = None /\
    exists evs,
      new_events (world_with (Some 1) 2) w' = [EDestroy 1] ++ evs /\
      destroys evs = [] /\ created evs = [].
Proof.
  eexists. split; [reflexivity|].
  eapply (throw_leaves_stages no_opus_encoder
            (CallPlayUnknown (InStream 0)
               (Some {| seek := PUndefined; volume := PNum 1;
                        passes := PUndefined |}))
            (world_with (Some 1) 2)).
  reflexivity.
Defined.

(** C6, counterexample: a player holds dispatcher 1 and the opus encoder
    cannot be constructed; [playUnknown(stream, { volume: 1 })] throws after
    it has destroyed dispatcher 1, constructed the FFmpeg transform (object
    2) and piped the stream into it.  The player's slot has changed, and
    the FFmpeg transform is not destroyed. *)
Lemma playUnknown_throw_keeps_ffmpeg :
  let w := world_with (Some 1) 2 in
  let options :=
    Some {| seek := PUndefined; volume := PNum 1; passes := PUndefined |} in
  exists w',
    playUnknown no_opus_encoder (InStream 0) options w =
      Throw (StageInitError (OpusEncoder codec_params)) w' /\
    dispatcher w = Some 1 /\
    dispatcher w' = None /\
    new_events w w' =
      [EDestroy 1; ENew 2 (FFmpeg FFMPEG_ARGUMENTS_initial); EPipe 0 2] /\
    destroys (new_events w w') = [1].
Proof.
  intros w options. eexists. split; [lazy; reflexivity|].
  repeat split; reflexivity.
Qed.

(** ** passes *)

Lemma wiring_app evs1 evs2 : wiring (evs1 ++ evs2) = wiring evs1 ++ wiring evs2.
Proof. apply omap_app. Qed.

Ltac passes_unused :=
  intros ? [[? ? ?]|] ?; run; cases;
  first [reflexivity | rewrite ?wiring_app; reflexivity].

Ltac passes_to_dispatcher :=
  intros options w; run; destruct options as [[? ? ?]|]; cases;
  (let H := fresh "Hev" in name_events H);
  rewrite ?stages_destroyed, ?dispatcher_options_destroyed,
    ?stages_destroyed_only, ?dispatcher_options_destroyed_only;
  (split; [repeat first [apply Forall_nil_2 | apply Forall_cons_2; [by split|]]
          | reflexivity]).









(** ** Default options *)




(** ** Further properties of the play calls *)

(** X1: [playUnknown]'s [args] is the module-level array
    [FFMPEG_ARGUMENTS] itself when the input is a stream, so
    [args.push('-ss', ...)] changes that array for every later call; for
    another input [args] is a new array and [FFMPEG_ARGUMENTS] stays as it
    was.  After two calls [playUnknown(stream, { seek: 5 })] the second
    FFmpeg transform is given the seek arguments twice. *)
Theorem playUnknown_seek_extends_FFMPEG_ARGUMENTS :
  (forall raises input (o : Options) (w : World),
     FFMPEG_ARGUMENTS (state_of (playUnknown raises input (Some o) w)) =
       match input with
       | InStream _ =>
         if truthy (seek o)
         then FFMPEG_ARGUMENTS w ++ [AVal (PStr "-ss"); AString (seek o)]
         else FFMPEG_ARGUMENTS w
       | InValue _ => FFMPEG_ARGUMENTS w
       end) /\
  (let options :=
     Some {| seek := PNum 5; volume := PBool false; passes := PUndefined |} in
   let ss := [AVal (PStr "-ss"); AString (PNum 5)] in
   let w1 := state_of (playUnknown no_raise (InStream 0) options
                         (world_with None 1)) in
   let w2 := state_of (playUnknown no_raise (InStream 0) options w1) in
   stages (new_events w1 w2) =
     [FFmpeg (FFMPEG_ARGUMENTS_initial ++ ss ++ ss);
      OpusEncoder codec_params]).
Proof.
  split.
  - intros raises input [sk v ps] w. destruct input; run; cases; reflexivity.
  - reflexivity.
Qed.

(** X2: [playPCMStream] with [options.volume === false]: one opus encoder is
    constructed and nothing else, the stream is piped into it and it into
    the new dispatcher. *)
Theorem playPCMStream_volume_disabled :
  forall raises (stream : ObjId) (sk ps : prim) (streams : Streams) (w : World),
    raises (OpusEncoder codec_params) = false ->
    let options := Some {| seek := sk; volume := PBool false; passes := ps |} in
    let n := next_id w in
    exists w',
      playPCMStream raises stream options streams w = Ok (n + 1) w' /\
      new_events w w' =
        destroyed (dispatcher w) ++
        [ENew n (OpusEncoder codec_params); EPipe stream n;
         ENewDispatcher (n + 1) options (set_opus n (set_opus n streams)) None;
         EPipe n (n + 1)] /\
      stages (new_events w w') = [OpusEncoder codec_params] /\
      Chain (new_events w w') stream [OpusEncoder codec_params] (n + 1).
Proof.
  intros raises stream sk ps streams w Hraises options n.
  run. rewrite Hraises. simpl. subst n.
  replace (next_id w + 1) with (S (next_id w)) by lia.
  eexists; split; [reflexivity|].
  name_events H. rewrite stages_destroyed. repeat split; try done.
  apply Chain_destroyed. chain.
Qed.

(** [playPCMStream(stream, { volume: false })] on a new player. *)
Lemma playPCMStream_volume_disabled_witness :
  exists w',
    playPCMStream no_raise 0
      (Some {| seek := PUndefined; volume := PBool false;
               passes := PUndefined |})
      no_streams (world_with None 1) = Ok 2 w' /\
    stages (new_events (world_with None 1) w') = [OpusEncoder codec_params].
Proof.
  destruct (playPCMStream_volume_disabled no_raise 0 PUndefined PUndefined
              no_streams (world_with None 1) eq_refl)
    as (w' & Hrun & _ & Hstages & _).
  exists w'. split; [exact Hrun | exact Hstages].
Defined.

(** X3: [playUnknown] for a stream input, when the constructors succeed: the
    input is piped through FFmpeg (given the seek arguments when
    [options.seek] is truthy), a volume transformer unless volume is
    disabled, and one opus encoder, into the new dispatcher; nothing else is
    constructed. *)
Theorem playUnknown_stream_chain :
  forall raises (s : ObjId) (o : Options) (w : World),
    (forall spec, raises spec = false) ->
    let args :=
      if truthy (seek o)
      then FFMPEG_ARGUMENTS w ++ [AVal (PStr "-ss"); AString (seek o)]
      else FFMPEG_ARGUMENTS w in
    let scale :=
      if is_false (volume o) then []
      else [VolumeTransformer16LE [("volume", volume o)]] in
    exists d w',
      playUnknown raises (InStream s) (Some o) w = Ok d w' /\
      Chain (new_events w w') s
            (FFmpeg args :: scale ++ [OpusEncoder codec_params]) d /\
      stages (new_events w w') =
        FFmpeg args :: OpusEncoder codec_params :: scale /\
      dispatcher w' = Some d.
Proof.
  intros raises s o w Hraises args scale. subst args scale.
  run. rewrite !Hraises.
  destruct (truthy (seek o)), (is_false (volume o)); simpl;
    rewrite ?Hraises; simpl.
  all: eexists _, _; split; [reflexivity|].
  all: name_events H; rewrite stages_destroyed.
  all: split; [apply Chain_destroyed; chain | done].
Qed.

(** [playUnknown(stream, { seek: 5, volume: 0.5 })] on a new player. *)
Lemma playUnknown_stream_chain_witness :
  exists d w',
    playUnknown no_raise (InStream 0)
      (Some {| seek := PNum 5; volume := PNum 0.5; passes := PUndefined |})
      (world_with None 1) = Ok d w' /\
    stages (new_events (world_with None 1) w') =
      [FFmpeg (FFMPEG_ARGUMENTS_initial ++
               [AVal (PStr "-ss"); AString (PNum 5)]);
       OpusEncoder codec_params;
       VolumeTransformer16LE [("volume", PNum 0.5)]].
Proof.
  destruct (playUnknown_stream_chain no_raise 0
              {| seek := PNum 5; volume := PNum 0.5; passes := PUndefined |}
              (world_with None 1))
    as (d & w' & Hrun & _ & Hstages & _); [done|].
  exists d, w'. split; [exact Hrun | exact Hstages].
Defined.

(** X4: a play call without an [options] object throws a [TypeError] where it
    first reads a property of [options]: [playUnknown] and [playOpusStream]
    right after destroying the dispatcher held, [playPCMStream] after it has
    constructed and piped an encoder and a volume transformer of volume 1,
    [playStream] and [playFile] before they do anything. *)
Theorem play_without_options_throws :
  forall raises (_shutdown : M unit)
         (convertStream : ObjId -> Options -> M ObjId) (w : World),
    (forall input,
       playUnknown raises input None w = Throw TypeError (after_destroy w)) /\
    (forall stream streams,
       playOpusStream raises stream None streams w =
         Throw TypeError (after_destroy w)) /\
    (forall stream streams,
       exists w',
         playPCMStream no_raise stream None streams w = Throw TypeError w' /\
         new_events w w' =
           destroyed (dispatcher w) ++
           [ENew (next_id w) (OpusEncoder codec_params);
            ENew (S (next_id w)) (VolumeTransformer16LE [("volume", PNum 1)]);
            EPipe stream (S (next_id w));
            EPipe (S (next_id w)) (next_id w)]) /\
    (forall stream,
       playStream raises _shutdown convertStream stream None w =
         Throw TypeError w) /\
    (forall file,
       playFile raises _shutdown convertStream file None w =
         Throw TypeError w).
Proof.
  intros raises _shutdown convertStream w.
  split; [intros input; by run|].
  split; [intros stream streams; by run|].
  split; [|by split].
  intros stream streams. run. eexists. split; [reflexivity|]. trace_eq.
Qed.

End PlayerFacts.

(** * Further properties of the resolver *)

Module ResolverMore.
Import JS Resolver ResolverFacts.


(** X6: [resolveUserID] never looks into the client's cache.  A string that
    is not empty is returned as it is, so it can be an ID for which
    [resolveUser] finds no user; for a User or a Message, the ID returned is
    the [id] of the user [resolveUser] returns. *)
Theorem resolveUserID_without_cache :
  forall (client : Client),
    (forall (a : Ascii.ascii) (s : string),
       resolveUserID (VPrim (PStr (String a s))) =
         Ok (VPrim (PStr (String a s))) /\
       resolveUser client (VPrim (PStr (String a s))) =
         Ok (match client_users client !! String a s with
             | Some u => VUser u
             | None => null
             end)) /\
    (forall v,
       match v with
       | VUser _ | VMessage _ =>
         exists u, resolveUser client v = Ok (VUser u) /\
                   resolveUserID v = Ok (VPrim (PStr (user_id u)))
       | _ => True
       end).
Proof.
  intros client. split.
  - intros a s. split; [done|]. simpl.
    by destruct (client_users client !! String a s).
  - intros [[]| u | | m | | |]; try done; eexists; by split.
Qed.

(** X7: [resolveGuildMember] returns a GuildMember it is given as it is,
    whatever the guild argument is.  For any other user it goes through
    [resolveUser]: a user ID is looked up in the client's user cache first
    and the guild's members are searched under the [id] of the user found,
    so an ID that the client's cache lacks gives [null] even when the guild
    has a member under that ID. *)
Theorem resolveGuildMember_through_user_cache :
  forall (client : Client),
    (forall guild m,
       resolveGuildMember client guild (VGuildMember m) =
         Ok (VGuildMember m)) /\
    (forall g (s : string),
       resolveGuildMember client (VGuild g) (VPrim (PStr s)) =
         Ok (match client_users client !! s with
             | Some u =>
               match members g !! user_id u with
               | Some m => VGuildMember m
               | None => null
               end
             | None => null
             end)) /\
    (forall (id s : string),
       resolveGuildMember client (VPrim (PStr id)) (VPrim (PStr s)) =
         Ok (match client_guilds client !! id, client_users client !! s with
             | Some g, Some u =>
               match members g !! user_id u with
               | Some m => VGuildMember m
               | None => null
               end
             | _, _ => null
             end)) /\
    (forall g (u : User),
       resolveGuildMember client (VGuild g) (VUser u) =
         Ok (match members g !! user_id u with
             | Some m => VGuildMember m
             | None => null
             end)) /\
    (forall users guilds chans g (s : string) (m : GuildMember),
       resolveGuildMember
         {| client_users := delete s users; client_guilds := guilds;
            client_channels := chans |}
         (VGuild {| guild_id := guild_id g; ownerID := ownerID g;
                    owner := owner g; members := <[s := m]> (members g);
                    channels := channels g |})
         (VPrim (PStr s)) = Ok null).
Proof.
  intros client. split; [done|]. split; [|split; [|split]].
  - intros g s. unfold resolveGuildMember. simpl.
    destruct (client_users client !! s) as [u|]; simpl; [|done].
    by destruct (members g !! user_id u).
  - intros id s. unfold resolveGuildMember. simpl.
    destruct (client_guilds client !! id) as [g|]; simpl;
      destruct (client_users client !! s) as [u|]; simpl; done.
  - intros g u. unfold resolveGuildMember. simpl.
    by destruct (members g !! user_id u).
  - intros users guilds chans g s m. unfold resolveGuildMember. simpl.
    by rewrite lookup_delete_eq.
Qed.

(** X8: the result of [resolveChannel] does not depend on the client: its
    channel cache is never read with a key that can be in it.  A Channel is
    returned as it is, a Message gives its channel, and a Guild gives the
    channel stored in the guild under the guild's own ID, or [null]. *)
Theorem resolveChannel_ignores_client :
  (forall (client client' : Client) (v : value),
     resolveChannel client v = resolveChannel client' v) /\
  (forall (client : Client) (g : Guild),
     resolveChannel client (VGuild g) =
       Ok (match channels g !! guild_id g with
           | Some c => VChannel c
           | None => null
           end)) /\
  (forall (client : Client) (m : Message),
     resolveChannel client (VMessage m) = Ok (VChannel (channel m))) /\
  (forall (client : Client) (c : Channel),
     resolveChannel client (VChannel c) = Ok (VChannel c)).
Proof.
  split; [by intros client client' [[]| | | | | |]|].
  split; [|by split].
  intros client g. simpl. by destruct (channels g !! guild_id g).
Qed.


End ResolverMore.

(** * Properties of the string, image and file resolvers *)

Module DataFacts.
Import JS Data.

Lemma join_concat ToString sep elems :
  join ToString sep elems = String.concat sep (map (element ToString) elems).
Proof.
  induction elems as [|e [|e' rest] IH]; [done | done |].
  change (join ToString sep (e :: e' :: rest))
    with (element ToString e +:+ sep +:+ join ToString sep (e' :: rest)).
  by rewrite IH.
Qed.

Lemma map_element_strings String_other (l : list string) :
  map (element (ToString String_other)) (map dstring l) = l.
Proof. induction l as [|x l IH]; [done|]. simpl. by rewrite IH. Qed.

(** X10: [resolveString] of an array of strings is the strings with a line
    feed between them (none for the empty array, the string itself for one
    element).  An element that is itself an array of strings contributes
    its strings joined by commas.  An element that is [null] or [undefined]
    contributes the empty string, though [resolveString(null)] is ["null"]
    and [resolveString(undefined)] is ["undefined"]. *)
Theorem resolveString_joins :
  forall (String_other : data -> string),
    (forall l : list string,
       resolveString String_other (DArray (map dstring l)) =
         String.concat newline l) /\
    (forall ls : list (list string),
       resolveString String_other
         (DArray (map (fun l => DArray (map dstring l)) ls)) =
         String.concat newline (map (String.concat ",") ls)) /\
    (forall (pre post : list data) (x : prim),
       match x with
       | PUndefined | PNull =>
         resolveString String_other
           (DArray (pre ++ DValue (Resolver.VPrim x) :: post)) =
         resolveString String_other (DArray (pre ++ dstring "" :: post))
       | _ => True
       end) /\
    resolveString String_other (DValue Resolver.null) = "null" /\
    resolveString String_other (DValue Resolver.undefined) = "undefined".
Proof.
  intros String_other. split; [|split; [|split; [|by split]]].
  - intros l. simpl. by rewrite join_concat, map_element_strings.
  - intros ls. simpl. rewrite join_concat. f_equal.
    induction ls as [|l ls IH]; [done|]. simpl. rewrite IH. f_equal.
    by rewrite join_concat, map_element_strings.
  - intros pre post [| | | |]; try done; simpl.
    all: by rewrite !join_concat, !map_app.
Qed.

(** X11: what [resolveBase64] returns is never a Buffer, so resolving its
    result again changes nothing; a value that is not a Buffer comes back
    as it is; and two Buffers get the same data URI only if they are equal,
    provided the base 64 encoding tells Buffers apart. *)
Theorem resolveBase64_idempotent :
  forall (toBase64 : list Byte.byte -> string),
    (forall x y, toBase64 x = toBase64 y -> x = y) ->
    (forall d,
       resolveBase64 toBase64 (resolveBase64 toBase64 d) =
         resolveBase64 toBase64 d) /\
    (forall d,
       match resolveBase64 toBase64 d with
       | DBuffer _ => False
       | _ => True
       end) /\
    (forall d,
       match d with
       | DBuffer _ => True
       | _ => resolveBase64 toBase64 d = d
       end) /\
    (forall b1 b2,
       resolveBase64 toBase64 (DBuffer b1) =
         resolveBase64 toBase64 (DBuffer b2) ->
       b1 = b2).
Proof.
  intros toBase64 Hinj.
  split; [by intros []|]. split; [by intros []|]. split; [by intros []|].
  intros b1 b2. simpl. intros [= H]. by apply Hinj.
Qed.

(** With the bytes themselves, read as a string, standing for the
    encoding: two one-byte Buffers. *)
Lemma resolveBase64_idempotent_witness :
  let encode := String.string_of_list_byte in
  resolveBase64 encode (resolveBase64 encode (DBuffer [Byte.x41])) =
    resolveBase64 encode (DBuffer [Byte.x41]) /\
  (resolveBase64 encode (DBuffer [Byte.x41]) =
     resolveBase64 encode (DBuffer [Byte.x41]) ->
   [Byte.x41] = [Byte.x41]).
Proof.
  intros encode.
  assert (Hinj : forall x y, encode x = encode y -> x = y).
  { intros x y H.
    rewrite <- (String.list_byte_of_string_of_list_byte x).
    rewrite <- (String.list_byte_of_string_of_list_byte y).
    unfold encode in H. by rewrite H. }
  destruct (resolveBase64_idempotent encode Hinj) as (Hidem & _ & _ & Hdist).
  split; [apply Hidem | apply Hdist].
Defined.

Lemma prefix_app (p s : string) :
  String.prefix p s = true <-> exists rest, s = p +:+ rest.
Proof.
  revert s. induction p as [|a p IH]; intros s; simpl.
  - split; [intros _; by exists s | by destruct s].
  - destruct s as [|b s]; simpl.
    + split; [done | by intros [rest ?]].
    + destruct (Ascii.ascii_dec a b) as [->|Hne].
      * split.
        -- intros H. apply IH in H as [rest ->]. by exists rest.
        -- intros [rest [= ->]]. apply IH. by exists rest.
      * split; [done|]. intros [rest [= <- _]]. done.
Qed.

Lemma is_url_prefix (s : string) :
  is_url s = true <->
  exists rest, s = "http://" +:+ rest \/ s = "https://" +:+ rest.
Proof.
  unfold is_url. rewrite orb_true_iff, !prefix_app.
  split.
  - intros [[rest ->]|[rest ->]]; exists rest; [by left | by right].
  - intros [rest [-> | ->]]; [left | right]; by exists rest.
Qed.

(** Split a case of [resolveFile] into what it says of the requests and of
    the promise. *)
Ltac file_case :=
  repeat split; intros;
  repeat match goal with
         | H : _ \/ _ |- _ => destruct H
         | H : exists _, _ |- _ => destruct H
         | H : _ /\ _ |- _ => destruct H
         | H : is_Some None |- _ => by destruct H
         end;
  simplify_eq; try done; try congruence; eauto 10.

(** X12: [resolveFile] makes an HTTP request, and no file system call, for
    exactly the strings that begin with [http://] or [https://] in lower
    case; for any other string it stats [path.resolve(resource)] and reads
    the file only when the stats are those of a file; for a Buffer or any
    other value it makes no request.  The promise resolves with the Buffer
    given, the body received or the data read.  It stays pending for ever
    exactly when the path exists and is not a file; and exactly for the
    paths whose stat fails or is not a file's, an Error is thrown out of
    the [fs.stat] callback, where no promise catches it (after a failed
    stat the promise is rejected with the stat error). *)
Theorem resolveFile_outcomes :
  forall (outside : Outside) (resource : data),
    let r := resolveFile outside resource in
    let stat s := fs_stat outside (path_resolve outside s) in
    (forall s, is_url s = true <->
       exists rest, s = "http://" +:+ rest \/ s = "https://" +:+ rest) /\
    requests r =
      match resource with
      | DValue (Resolver.VPrim (PStr s)) =>
        if is_url s then [HttpGet s]
        else
          match stat s with
          | StatOk true =>
            [Stat (path_resolve outside s); ReadFile (path_resolve outside s)]
          | _ => [Stat (path_resolve outside s)]
          end
      | _ => []
      end /\
    (forall bytes,
       promise r = Resolved bytes <->
       resource = DBuffer bytes \/
       exists s, resource = dstring s /\
         (is_url s = true /\ request_get outside s = ReadOk bytes \/
          is_url s = false /\ stat s = StatOk true /\
          fs_readFile outside (path_resolve outside s) = ReadOk bytes)) /\
    (promise r = Pending <->
     exists s, resource = dstring s /\ is_url s = false /\
               stat s = StatOk false) /\
    (is_Some (uncaught r) <->
     exists s, resource = dstring s /\ is_url s = false /\
               (stat s = StatOk false \/ exists err, stat s = StatError err)) /\
    (forall s err,
       resource = dstring s -> is_url s = false -> stat s = StatError err ->
       promise r = Rejected (Err err)) /\
    match resource with
    | DBuffer _ | DValue (Resolver.VPrim (PStr _)) => True
    | _ => promise r =
             Rejected (TypeError "Resource must be a string or Buffer.")
    end.
Proof.
  intros outside resource r stat. subst r stat.
  split; [apply is_url_prefix|].
  unfold resolveFile, dstring.
  set (msg := "Resource must be a string or Buffer."). clearbody msg.
  set (nf := "The file could not be found: "). clearbody nf.
  destruct resource as [b|elems|[[| |x|q|s]| | | | | |]]; simpl.
  all: try (lazymatch goal with
            | |- context [if is_url _ then _ else _] => fail
            | _ => idtac
            end; file_case; fail).
  destruct (is_url s) eqn:Hurl; simpl.
  { destruct (request_get outside s) eqn:Hget; file_case. }
  destruct (fs_stat outside (path_resolve outside s)) as [err|[|]] eqn:Hstat;
    simpl;
    [| destruct (fs_readFile outside (path_resolve outside s)) eqn:Hread |];
    file_case.
Qed.

End DataFacts.

(** * Further properties of the player *)

Module PlayerMore.
Import JS Player PlayerFacts.

Lemma no_pipe_in_destroyed d src dst : EPipe src dst ∉ destroyed d.
Proof.
  destruct d as [d|]; simpl; intros H.
  - apply elem_of_cons in H as [H|H]; [discriminate H|].
    by apply elem_of_nil in H.
  - by apply elem_of_nil in H.
Qed.

(** X13: [playUnknown] for an input that is not a stream (a path), when the
    constructors succeed.  FFmpeg is given ['-i', input, ...] (and the seek
    arguments last when [options.seek] is truthy) and nothing is piped into
    it; the shared [FFMPEG_ARGUMENTS] is left as it was.  With volume
    disabled FFmpeg feeds one encoder and the encoder the dispatcher; with
    volume enabled, [streams.input] being unset, the encoder's output is
    decoded, scaled and encoded a second time before the dispatcher. *)
Theorem playUnknown_path_chain :
  forall raises (p : prim) (o : Options) (w : World),
    (forall spec, raises spec = false) ->
    let base := AVal (PStr "-i") :: AVal p :: FFMPEG_ARGUMENTS w in
    let args :=
      if truthy (seek o)
      then base ++ [AVal (PStr "-ss"); AString (seek o)]
      else base in
    let vol := VolumeTransformer16LE [("volume", volume o)] in
    let encoder := OpusEncoder codec_params in
    let decoder := OpusDecoder codec_params in
    exists d w',
      playUnknown raises (InValue p) (Some o) w = Ok d w' /\
      stages (new_events w w') =
        FFmpeg args ::
        (if is_false (volume o) then [encoder]
         else [encoder; vol; decoder; vol; encoder]) /\
      Chain (new_events w w') (next_id w)
            (if is_false (volume o) then [encoder]
             else [vol; encoder; decoder; vol; encoder]) d /\
      (forall src, EPipe src (next_id w) ∉ new_events w w') /\
      FFMPEG_ARGUMENTS w' = FFMPEG_ARGUMENTS w /\
      dispatcher w' = Some d.
Proof.
  intros raises p o w Hraises base args vol encoder decoder.
  subst base args vol encoder decoder.
  run. rewrite !Hraises.
  destruct (truthy (seek o)), (is_false (volume o)); simpl;
    rewrite ?Hraises; simpl.
  all: eexists _, _; split; [reflexivity|].
  all: name_events H; rewrite stages_destroyed.
  all: split; [done|]; split; [apply Chain_destroyed; chain|].
  all: split; [|done].
  all: intros src Hin; apply elem_of_app in Hin as [Hin|Hin];
    [by apply no_pipe_in_destroyed in Hin|].
  all: repeat (apply elem_of_cons in Hin as [Hin|Hin];
               [exfalso; first [discriminate Hin | injection Hin; lia]|]).
  all: by apply elem_of_nil in Hin.
Qed.

(** [playUnknown('a.mp3', { seek: 5, volume: 0.5 })] on a new player. *)
Lemma playUnknown_path_chain_witness :
  exists d w',
    playUnknown no_raise (InValue (PStr "a.mp3"))
      (Some {| seek := PNum 5; volume := PNum 0.5; passes := PUndefined |})
      (world_with None 0) = Ok d w' /\
    stages (new_events (world_with None 0) w') =
      [FFmpeg (AVal (PStr "-i") :: AVal (PStr "a.mp3") ::
               FFMPEG_ARGUMENTS_initial ++
               [AVal (PStr "-ss"); AString (PNum 5)]);
       OpusEncoder codec_params;
       VolumeTransformer16LE [("volume", PNum 0.5)];
       OpusDecoder codec_params;
       VolumeTransformer16LE [("volume", PNum 0.5)];
       OpusEncoder codec_params].
Proof.
  destruct (playUnknown_path_chain no_raise (PStr "a.mp3")
              {| seek := PNum 5; volume := PNum 0.5; passes := PUndefined |}
              (world_with None 0))
    as (d & w' & Hrun & Hstages & _); [done|].
  exists d, w'. split; [exact Hrun | exact Hstages].
Defined.

(** X14: [playFile] does not read [passes]: whatever [passes] the caller
    puts in the options object, the call does the same and returns the
    same. *)
Theorem playFile_ignores_passes :
  forall raises (_shutdown : M unit)
         (convertStream : ObjId -> Options -> M ObjId)
         (file : prim) (options : option Options) (p : prim) (w : World),
    playFile raises _shutdown convertStream file (with_passes p options) w =
    playFile raises _shutdown convertStream file options w.
Proof. intros raises _shutdown convertStream file [o|] p w; reflexivity. Qed.

(** X15: [destroy()] after any sequence of calls on a new player never
    throws; it calls [destroy] on the dispatcher held and on nothing else
    (it does nothing at all when none is held), and afterwards the slot is
    empty and no dispatcher the player constructed is alive. *)
Theorem destroy_after_any_calls :
  forall raises (cs : list Call),
    let w := run_calls raises cs constructor in
    exists w',
      destroy w = Ok tt w' /\
      new_events w w' = destroyed (dispatcher w) /\
      dispatcher w' = None /\
      live (trace w') = [] /\
      match dispatcher w with None => w' = w | Some _ => True end.
Proof.
  intros raises cs w.
  destruct (Inv_after_destroy w (run_calls_Inv raises cs _ Inv_constructor))
    as [_ Hlive].
  exists (after_destroy w). unfold destroy. rewrite destroyDispatcher_run.
  split; [done|]. split; [by apply new_events_app|]. split; [done|].
  split; [exact Hlive|].
  generalize w. intros [[d|] sd args n tr]; [done|].
  unfold after_destroy. simpl. by rewrite app_nil_r.
Qed.

(** What no call changes: [streamingData]; and the fixed arguments at the
    head of [FFMPEG_ARGUMENTS]. *)
Lemma run_call_keeps raises c w :
  streamingData (state_of (run_call raises c w)) = streamingData w /\
  exists more,
    FFMPEG_ARGUMENTS (state_of (run_call raises c w)) =
      FFMPEG_ARGUMENTS w ++ more.
Proof.
  assert (Hsame : forall args : list arg, exists more, args = args ++ more)
    by (intros args; exists []; by rewrite app_nil_r).
  destruct c as [[s|p] [o|]|stream [o|] streams|stream [o|] streams
                |options streams broadcast|];
    run; cases; split; solve [done | apply Hsame | eauto].
Qed.

(** X16: over any sequence of calls on a new player, [streamingData] stays
    as the constructor set it ([{ channels: 2, sequence: 0, timestamp: 0 }])
    and [FFMPEG_ARGUMENTS] only grows at its end: the ten fixed arguments
    stay at its head. *)
Theorem calls_keep_streamingData :
  forall raises (cs : list Call),
    let w := run_calls raises cs constructor in
    streamingData w =
      {| sd_channels := 2; sequence := 0; timestamp := 0 |} /\
    exists more, FFMPEG_ARGUMENTS w = FFMPEG_ARGUMENTS_initial ++ more.
Proof.
  intros raises cs.
  assert (H : forall w,
    streamingData (run_calls raises cs w) = streamingData w /\
    exists more, FFMPEG_ARGUMENTS (run_calls raises cs w) =
                 FFMPEG_ARGUMENTS w ++ more).
  { induction cs as [|c cs IH]; intros w; simpl.
    - split; [done|]. exists []. by rewrite app_nil_r.
    - destruct (IH (state_of (run_call raises c w))) as [-> [more2 ->]].
      destruct (run_call_keeps raises c w) as [-> [more1 ->]].
      split; [done|]. exists (more1 ++ more2). by rewrite app_assoc. }
  intros w. subst w. destruct (H constructor) as [-> [more ->]].
  split; [done|]. by exists more.
Qed.

Ltac in_new_events := apply elem_of_app; right; member.

(** X17: what a play call hands to the dispatcher it constructs (called
    with no [streams] argument of the caller's).  The dispatcher gets the
    caller's [options] object and a [streams] object whose [opus] is the
    stream piped into the dispatcher.  With volume disabled [streams] has
    no [volume]; with volume enabled [streams.volume] is a volume
    transformer constructed with [options.volume] and piped straight into
    [streams.opus] (the last one, when two are constructed). *)
Theorem dispatcher_streams :
  forall raises (o : Options) (w : World),
    let handed (out : outcome ObjId) :=
      match out with
      | Ok d w' =>
        exists st x,
          ENewDispatcher d (Some o) st None ∈ new_events w w' /\
          s_opus st = Some x /\
          EPipe x d ∈ new_events w w' /\
          if is_false (volume o) then s_volume st = None
          else exists v,
              s_volume st = Some v /\
              ENew v (VolumeTransformer16LE [("volume", volume o)])
                ∈ new_events w w' /\
              EPipe v x ∈ new_events w w'
      | Throw _ _ => True
      end in
    (forall stream,
       handed (playOpusStream raises stream (Some o) no_streams w)) /\
    (forall stream,
       handed (playPCMStream raises stream (Some o) no_streams w)) /\
    (forall input, handed (playUnknown raises input (Some o) w)).
Proof.
  intros raises o w handed. subst handed.
  split; [|split]; intros x; try destruct x; run; cases; try exact I.
  all: eexists _, _; name_events H.
  all: split; [in_new_events|]; split; [reflexivity|].
  all: split; [in_new_events|]; try reflexivity.
  all: eexists; split; [reflexivity|]; split; in_new_events.
Qed.

End PlayerMore.
